(** * siren-nav: the navigation and reduction engine

    A shallow embedding of [src/steps.ts] ([reduce], [accept], [follow]) and
    of the [SirenNav] class ([create], [do], [sqaush], [goto], [getURL],
    [get], [performAction]).

    Conventions of the embedding.

    - JavaScript objects that the engine mutates in place (the [headers]
      object of a request configuration) live in a store and are named by
      a location, so that two configurations can share one headers object
      the way [{ ...state.config }] makes them share it.  Objects that are
      never written after their construction (navigation states, the
      top-level configuration object, documents) are plain values.
    - Everything with an effect runs in the state monad [M] over a [World]:
      the store of headers objects together with the state of the outside
      world (cache contents, network, console), which is left abstract.
    - A [Promise] is modelled by the way it settles: resolved with a value,
      rejected with an error, or never settled.  The effects of an [async]
      function are applied to the world in program order; interleavings of
      independent chains are not modelled. *)

From stdpp Require Import base strings list gmap.

Open Scope string_scope.
Open Scope list_scope.

(** ** Hypermedia documents (the shapes of the [siren-types] package) *)

Abbreviation URI := string.

Record Link := mkLink {
  link_rel : list string;
  link_href : URI
}.

(** A sub-entity always has its relation set.  An embedded link carries
    its own ["href"]; an embedded representation carries links of its own
    (among them, possibly, its self link).  [ent_href = None] stands for
    [entity.hasOwnProperty("href") = false]. *)
Record Entity := mkEntity {
  ent_rel : list string;
  ent_href : option URI;
  ent_links : option (list Link)
}.

(** [siren.entities] and [siren.links] may both be missing. *)
Record Siren := mkSiren {
  entities : option (list Entity);
  links : option (list Link)
}.

(** ** Errors and promises *)

Inductive Error :=
| NoMatch (rel : string) (doc : Siren)
    (* new Error("Cannot follow relation '" + rel +
                 "', no links with that relation in " + JSON.stringify(siren)) *)
| AmbiguousMatch (rel : string) (doc : Siren)
    (* new Error("Multiple links with relation '" + rel +
                 "' found when only one was expected in " + JSON.stringify(siren)) *)
| Failure (msg : string).
    (* anything thrown by a collaborator or by a user-supplied step *)

Inductive Promise (A : Type) :=
| Resolved (a : A)
| Rejected (e : Error)
| Pending.
Arguments Resolved {A} a.
Arguments Rejected {A} e.
Arguments Pending {A}.

(** [p.then(f)] for a synchronous [f] that does not throw. *)
Definition then_ {A B} (p : Promise A) (f : A → B) : Promise B :=
  match p with
  | Resolved a => Resolved (f a)
  | Rejected e => Rejected e
  | Pending => Pending
  end.

(** ** Request configurations *)

Abbreviation loc := nat.

(** The own properties of a configuration object other than ["headers"]:
    [create] builds [{ baseURL: base }], and [follow] may install a
    sub-entity object as the configuration. *)
Inductive ConfigProps :=
| BaseURL (base : URI)
| OfEntity (e : Entity).

(** [headers = None]: the object has no (truthy) ["headers"] property;
    [headers = Some l]: the property refers to the headers object at [l]. *)
Record Config := mkConfig {
  props : ConfigProps;
  headers : option loc
}.

(** The JavaScript truthiness tests the engine uses. *)
Definition truthy_string (s : string) : bool := negb (String.eqb s "").

Definition or_false (debug : option bool) : bool :=
  match debug with Some b => b | None => false end.

(** [rels.indexOf(rel) == -1] is [negb (has_rel rel rels)]. *)
Definition has_rel (rel : string) (rels : list string) : bool :=
  existsb (String.eqb rel) rels.

(** ** The host: the cache and the outside world *)

Class Host := {
  ExtWorld : Type;
  Cache : Type;
  CacheHandle : Type;
  Response : Type;
  Body : Type;
  (* cache.getOr(uri) *)
  getOr : Cache → URI → ExtWorld → CacheHandle * ExtWorld
}.

Section Engine.
Context `{Host}.

Record World := mkWorld {
  heap : gmap loc (gmap string string);
  ext : ExtWorld
}.

Definition M (A : Type) : Type := World → A * World.

#[local] Instance M_ret : MRet M := λ A a w, (a, w).
#[local] Instance M_bind : MBind M := λ A B f m w, let (a, w') := m w in f a w'.

Definition lift_ext {A} (f : ExtWorld → A * ExtWorld) : M A :=
  λ w, let (a, e) := f (ext w) in (a, mkWorld (heap w) e).

(** Store operations.  A location always denotes an object; one that was
    never allocated reads as the empty object. *)
Definition alloc (obj : gmap string string) : M loc :=
  λ w, let l := fresh (dom (heap w)) in
       (l, mkWorld (<[l := obj]> (heap w)) (ext w)).

Definition read (l : loc) : M (gmap string string) :=
  λ w, (default ∅ (heap w !! l), w).

Definition write (l : loc) (obj : gmap string string) : M unit :=
  λ w, (tt, mkWorld (<[l := obj]> (heap w)) (ext w)).

(** The headers object a configuration refers to, as the store has it. *)
Definition headers_of (w : World) (c : Config) : option (gmap string string) :=
  match headers c with
  | Some l => Some (default ∅ (heap w !! l))
  | None => None
  end.

(** ** Navigation states ([new NavState(cur, root, config, handle)]) *)

Record NavState := mkNavState {
  cur : URI;
  root : URI;
  config : Config;
  value : CacheHandle
}.

Inductive ConsoleLine :=
| Log (msg : string)                      (* console.log(msg) *)
| LogState (msg : string) (st : NavState) (* console.log(msg + JSON.stringify(st)) *)
| LogError (msg : string) (doc : Siren).  (* console.error(msg, doc) *)

(** ** The transport and the utilities ([./utils], [./requests]) *)

Class Transport := {
  (* getSiren(state): the document behind the state's cache handle *)
  getSiren : NavState → M (Promise Siren);
  (* getSelf(entity): the entity's self URI, or null *)
  getSelf : Entity → option URI;
  getRequest : NavState → bool → M (Promise Response);
  performAction : string → Body → NavState → bool → M (Promise Response);
  console : ConsoleLine → ExtWorld → ExtWorld
}.

Context `{Transport}.

Definition console_log (msg : string) : M unit :=
  lift_ext (λ e, (tt, console (Log msg) e)).

Definition when (b : bool) (m : M unit) : M unit :=
  if b then m else mret tt.

(** [await p] followed by the rest of an [async] function: a rejection is
    rethrown, and the function never returns when [p] never settles. *)
Definition await {A B} (p : Promise A) (k : A → M (Promise B)) : M (Promise B) :=
  match p with
  | Resolved a => k a
  | Rejected e => mret (Rejected e)
  | Pending => mret Pending
  end.

(** ** steps.ts *)

Definition Step : Type := NavState → Cache → bool → M (Promise NavState).

Fixpoint reduce (cur : Promise NavState) (steps : list Step)
    (cache : Cache) (debug : bool) : M (Promise NavState) :=
  match steps with
  | [] => mret cur
  | step0 :: rest =>
      await cur (λ state,
        p ← step0 state cache debug;
        reduce p rest cache debug)
  end.

(** Lines 19-26 of [accept]: the new configuration.  The spread copies the
    own properties of [state.config], so the copy refers to the same
    headers object when there is one; a fresh headers object is allocated
    only when there is none. *)
Definition accept_config (ctype : string) (cfg : Config) : M Config :=
  (* let newconfig = { ...state.config };
     if (!newconfig.headers) newconfig.headers = {}; *)
  l ← match headers cfg with
      | Some l => mret l
      | None => alloc ∅
      end;
  hs ← read l;
  match hs !! "Accept" with
  | Some old => write l (<["Accept" := old +:+ ", " +:+ ctype]> hs)
  | None => write l (<["Accept" := ctype]> hs)
  end;;
  mret (mkConfig (props cfg) (Some l)).

Definition accept (ctype : string) : Step := λ state cache debug,
  when debug (console_log
    ("Fetching data accepting only '" +:+ ctype +:+ "' as content type"));;
  when debug (console_log ("  Resource: " +:+ cur state));;
  newconfig ← accept_config ctype (config state);
  handle ← lift_ext (getOr cache (cur state));
  mret (Resolved (mkNavState (cur state) (root state) newconfig handle)).

(** [xs.forEach(body)], with what the body updates ([possible]) threaded
    through the turns of the loop. *)
Fixpoint forEach {A S} (xs : list A) (body : S → A → M S) (s : S) : M S :=
  match xs with
  | [] => mret s
  | x :: xs' => s' ← body s x; forEach xs' body s'
  end.

(** One turn of [(siren.entities || []).forEach(...)]; [possible.push(c)]
    is [possible ++ [c]]. *)
Definition push_entity (rel : string) (state : NavState) (cache : Cache)
    (debug : bool) (possible : list NavState) (entity : Entity)
    : M (list NavState) :=
  if negb (has_rel rel (ent_rel entity)) then mret possible
  else
    match ent_href entity with
    | Some href =>
        when debug (console_log "  Found possible match in subentity link");;
        handle ← lift_ext (getOr cache href);
        mret (possible ++ [mkNavState href (root state) (config state) handle])
    | None =>
        match getSelf entity with
        | Some self =>
            if truthy_string self then
              when debug
                (console_log "  Found possible match in subentity resource");;
              handle ← lift_ext (getOr cache self);
              mret (possible ++
                      [mkNavState self (root state)
                         (mkConfig (OfEntity entity) None) handle])
            else mret possible
        | None => mret possible
        end
    end.

(** One turn of [(siren.links || []).forEach(...)]. *)
Definition push_link (rel : string) (state : NavState) (cache : Cache)
    (debug : bool) (possible : list NavState) (link : Link)
    : M (list NavState) :=
  if negb (has_rel rel (link_rel link)) then mret possible
  else
    when debug (console_log "  Found possible match among links");;
    handle ← lift_ext (getOr cache (link_href link));
    mret (possible ++
            [mkNavState (link_href link) (root state) (config state) handle]).

(** Lines 35-54: the candidates, sub-entities first, then top-level links. *)
Definition collect (rel : string) (state : NavState) (cache : Cache)
    (debug : bool) (siren : Siren) : M (list NavState) :=
  possible ← forEach (default [] (entities siren))
                (push_entity rel state cache debug) [];
  forEach (default [] (links siren)) (push_link rel state cache debug) possible.

(** Lines 55-64: the cardinality policy.  [possible.length == 0] is the
    first branch of the match, and [possible[0]] is [first_match] in the
    second. *)
Definition select (rel : string) (first : option bool) (debug : bool)
    (siren : Siren) (possible : list NavState) : M (Promise NavState) :=
  match possible with
  | [] =>
      lift_ext (λ e, (tt, console (LogError
        ("Cannot follow relation '" +:+ rel +:+
         "', no links with that relation in ") siren) e));;
      mret (Rejected (NoMatch rel siren))
  | first_match :: _ =>
      if (1 <? length possible)%nat && negb (or_false first) then
        lift_ext (λ e, (tt, console (LogError
          ("Multiple links with relation '" +:+ rel +:+
           "' found when only one was expected in ") siren) e));;
        mret (Rejected (AmbiguousMatch rel siren))
      else
        when debug (lift_ext (λ e, (tt, console (LogState
          "  Found match, resulting state: " first_match) e)));;
        mret (Resolved first_match)
  end.

(** The callback [follow] passes to [getSiren(state).then]. *)
Definition follow_then (rel : string) (first : option bool)
    (state : NavState) (cache : Cache) (debug : bool) (siren : Siren)
    : M (Promise NavState) :=
  when debug (console_log ("Follow '" +:+ rel +:+ "':"));;
  possible ← collect rel state cache debug siren;
  select rel first debug siren possible.

Definition follow (rel : string) (first : option bool) : Step :=
  λ state cache debug,
    doc ← getSiren state;
    await doc (follow_then rel first state cache debug).

(** ** The SirenNav class *)

Record SirenNav := mkSirenNav {
  start : Promise NavState;
  steps : list Step;
  cache : Cache
}.

(** [NavResponse.create(resp, nav)]. *)
Record NavResponse := mkNavResponse {
  resp : Promise Response;
  nav : SirenNav
}.

Definition SirenNav_create (url base : URI) (cache : Cache) : M SirenNav :=
  handle ← lift_ext (getOr cache url);
  mret (mkSirenNav
          (Resolved (mkNavState url base (mkConfig (BaseURL base) None) handle))
          [] cache).

Definition SirenNav_do (this : SirenNav) (step : Step) : SirenNav :=
  mkSirenNav (start this) (steps this ++ [step]) (cache this).

Definition SirenNav_follow (this : SirenNav) (rel : string)
    (first : option bool) : SirenNav :=
  SirenNav_do this (follow rel first).

Definition SirenNav_accept (this : SirenNav) (ctype : string) : SirenNav :=
  SirenNav_do this (accept ctype).

Definition SirenNav_sqaush (this : SirenNav) (debug : option bool)
    : M SirenNav :=
  p ← reduce (start this) (steps this) (cache this) (or_false debug);
  mret (mkSirenNav p [] (cache this)).

(** The executor of [goto] awaits [this.start] only.  When that promise is
    rejected the executor's own promise rejects, neither [resolve] nor
    [reject] is called, and the new starting state never settles. *)
Definition SirenNav_goto (this : SirenNav) (url : URI) : M SirenNav :=
  newstate ← match start this with
             | Resolved state =>
                 handle ← lift_ext (getOr (cache this) url);
                 mret (Resolved
                         (mkNavState url (root state) (config state) handle))
             | Rejected _ => mret Pending
             | Pending => mret Pending
             end;
  mret (mkSirenNav newstate [] (cache this)).

Definition SirenNav_getURL (this : SirenNav) (debug : option bool)
    : M (Promise URI) :=
  state ← reduce (start this) (steps this) (cache this) (or_false debug);
  mret (then_ state cur).

Definition SirenNav_get (this : SirenNav) (debug : option bool)
    : M NavResponse :=
  state ← reduce (start this) (steps this) (cache this) (or_false debug);
  resp ← await state (λ s, getRequest s (or_false debug));
  mret (mkNavResponse resp this).



(** ** Reduction as the specification words it

    "Resolve the starting state, apply the first step to it, and recurse
    with the step's result": a left fold over the steps whose accumulator
    is the pending state together with the world, and which leaves both
    alone once the pending state has failed (or never settles). *)
Definition step_after (cache : Cache) (debug : bool)
    (acc : Promise NavState * World) (s : Step) : Promise NavState * World :=
  match acc.1 with
  | Resolved st => s st cache debug acc.2
  | Rejected e => (Rejected e, acc.2)
  | Pending => (Pending, acc.2)
  end.

Definition reduce_fold (cur : Promise NavState) (steps : list Step)
    (cache : Cache) (debug : bool) (w : World) : Promise NavState * World :=
  fold_left (step_after cache debug) steps (cur, w).

(** ** Candidates as the specification words them

    The pair (new current URI, new configuration) each matching item
    stands for. *)
Definition entity_candidate (rel : string) (state : NavState) (e : Entity)
    : option (URI * Config) :=
  if has_rel rel (ent_rel e) then
    match ent_href e with
    | Some href => Some (href, config state)
    | None =>
        match getSelf e with
        | Some self =>
            if truthy_string self
            then Some (self, mkConfig (OfEntity e) None)
            else None
        | None => None
        end
    end
  else None.

Definition link_candidate (rel : string) (state : NavState) (l : Link)
    : option (URI * Config) :=
  if has_rel rel (link_rel l) then Some (link_href l, config state) else None.

Definition candidates (rel : string) (state : NavState) (siren : Siren)
    : list (URI * Config) :=
  omap (entity_candidate rel state) (default [] (entities siren)) ++
  omap (link_candidate rel state) (default [] (links siren)).

(** ** Auxiliary notions used in the statements *)

(** The self URI that passes the test [if (self)] of [follow]. *)
Definition self_reference (e : Entity) : option URI :=
  match getSelf e with
  | Some self => if truthy_string self then Some self else None
  | None => None
  end.

(** The list [possible] that [follow] has built when it reaches its
    cardinality tests, for the document [siren] received in world [w]. *)
Definition possible_at (rel : string) (state : NavState) (cache : Cache)
    (debug : bool) (siren : Siren) (w : World) : list NavState :=
  (collect rel state cache debug siren
     (when debug (console_log ("Follow '" +:+ rel +:+ "':")) w).2).1.

(** The value of the ["Accept"] header of a configuration, if any. *)
Definition accept_value (w : World) (c : Config) : option string :=
  hs ← headers_of w c; hs !! "Accept".

(** The location of the headers object [accept] writes to, and the value
    it stores under ["Accept"]. *)
Definition accept_loc (w : World) (st : NavState) : loc :=
  match headers (config st) with
  | Some l => l
  | None => fresh (dom (heap w))
  end.

Definition accept_new_value (w : World) (st : NavState) (ctype : string)
    : string :=
  match accept_value w (config st) with
  | Some old => old +:+ ", " +:+ ctype
  | None => ctype
  end.

(** What a candidate is made of besides its handle. *)
Definition shape (s : NavState) : URI * Config := (cur s, config s).

(** The handle was handed out by [c.getOr] for the state's own URI. *)
Definition handle_for (c : Cache) (st : NavState) : Prop :=
  ∃ e : ExtWorld, value st = (getOr c (cur st) e).1.

(** What every candidate built from [st] with the cache [c] satisfies. *)
Definition built_from (st : NavState) (c : Cache) (s : NavState) : Prop :=
  root s = root st ∧ handle_for c s.

(** The result of the cardinality tests of [follow], lines 55-64. *)
Definition verdict (rel : string) (first : option bool) (siren : Siren)
    (possible : list NavState) : Promise NavState :=
  match possible with
  | [] => Rejected (NoMatch rel siren)
  | first_match :: _ =>
      if (1 <? length possible)%nat && negb (or_false first)
      then Rejected (AmbiguousMatch rel siren)
      else Resolved first_match
  end.

(** The steps of the engine itself, and the navigators it builds from one
    shared cache. *)
Inductive engine_step : Step → Prop :=
| engine_accept ctype : engine_step (accept ctype)
| engine_follow rel first : engine_step (follow rel first).

Inductive engine_nav (c : Cache) : SirenNav → Prop :=
| nav_create url base w : engine_nav c (SirenNav_create url base c w).1
| nav_accept n ctype : engine_nav c n → engine_nav c (SirenNav_accept n ctype)
| nav_follow n rel first :
    engine_nav c n → engine_nav c (SirenNav_follow n rel first)
| nav_goto n url w : engine_nav c n → engine_nav c (SirenNav_goto n url w).1
| nav_sqaush n d w : engine_nav c n → engine_nav c (SirenNav_sqaush n d w).1.

(** The navigators built from [create(url, base, c)] for one base URI. *)
Inductive rooted_nav (c : Cache) (base : URI) : SirenNav → Prop :=
| rooted_create url w : rooted_nav c base (SirenNav_create url base c w).1
| rooted_accept n ctype :
    rooted_nav c base n → rooted_nav c base (SirenNav_accept n ctype)
| rooted_follow n rel first :
    rooted_nav c base n → rooted_nav c base (SirenNav_follow n rel first)
| rooted_goto n url w :
    rooted_nav c base n → rooted_nav c base (SirenNav_goto n url w).1
| rooted_sqaush n d w :
    rooted_nav c base n → rooted_nav c base (SirenNav_sqaush n d w).1.

(** The value of the header [k] of a configuration, if any. *)
Definition header_value (w : World) (c : Config) (k : string)
    : option string :=
  hs ← headers_of w c; hs !! k.

(** A state without its handle. *)
Definition outline (s : NavState) : URI * URI * Config :=
  (cur s, root s, config s).

End Engine.

(** ** A sample host

    A cache whose handle for a URI is the URI itself, a world that keeps a
    journal of every [getOr], fetch and request, and a small site. *)
Module Journal.

Definition site (u : URI) : Promise Siren :=
  if String.eqb u "/api" then
    Resolved (mkSiren None (Some [mkLink ["widgets"] "/widgets"]))
  else if String.eqb u "/widgets" then
    Resolved (mkSiren
      (Some [mkEntity ["item"] (Some "/w/1") None;
             mkEntity ["item"] None (Some [mkLink ["self"] "/w/2"])])
      (Some [mkLink ["self"] "/widgets"]))
  else if String.eqb u "/w/1" then
    Resolved (mkSiren
      (Some [mkEntity ["owner"] None (Some [mkLink ["self"] "/u/7"]);
             mkEntity ["ghost"] None None])
      (Some [mkLink ["self"] "/w/1"; mkLink ["up"] "/widgets"]))
  else Rejected (Failure "404").

#[export] Instance host : Host := {|
  ExtWorld := list string;
  Cache := unit;
  CacheHandle := URI;
  Response := URI;
  Body := unit;
  getOr := λ _ u e, (u, e ++ ["getOr " +:+ u])
|}.

(** Modelled from the spec: [getSelf] of [./utils] is not among the
    sources; "a link on an entity pointing to that entity's own canonical
    URI" is taken to be the entity's first link with relation ["self"]. *)
Definition self_of (e : Entity) : option URI :=
  match list_find (λ l, has_rel "self" (link_rel l) = true)
          (default [] (ent_links e)) with
  | Some (_, l) => Some (link_href l)
  | None => None
  end.

#[export] Instance transport : Transport := {|
  getSiren := λ st w,
    (site (value st), mkWorld (heap w) (ext w ++ ["GET " +:+ value st]));
  getSelf := self_of;
  getRequest := λ st _ w,
    (Resolved (cur st), mkWorld (heap w) (ext w ++ ["request " +:+ cur st]));
  performAction := λ name _ st _ w,
    (Resolved (cur st),
     mkWorld (heap w) (ext w ++ ["action " +:+ name +:+ " " +:+ cur st]));
  console := λ _ e, e
|}.

Definition w0 : World := mkWorld ∅ [].

(** [SirenNav.create("/api", "http://h", cache)] and the world after it. *)
Definition api : SirenNav := (SirenNav_create "/api" "http://h" tt w0).1.
Definition w1 : World := (SirenNav_create "/api" "http://h" tt w0).2.

(** The starting state of [api] and the documents of the site. *)
Definition st_api : NavState :=
  mkNavState "/api" "http://h" (mkConfig (BaseURL "http://h") None) "/api".

Definition doc_api : Siren :=
  mkSiren None (Some [mkLink ["widgets"] "/widgets"]).

Definition st_widgets : NavState :=
  mkNavState "/widgets" "http://h" (mkConfig (BaseURL "http://h") None)
    "/widgets".

Definition item1 : Entity := mkEntity ["item"] (Some "/w/1") None.
Definition item2 : Entity :=
  mkEntity ["item"] None (Some [mkLink ["self"] "/w/2"]).

Definition doc_widgets : Siren :=
  mkSiren (Some [item1; item2]) (Some [mkLink ["self"] "/widgets"]).

Definition st_w1 : NavState :=
  mkNavState "/w/1" "http://h" (mkConfig (BaseURL "http://h") None) "/w/1".

Definition ghost : Entity := mkEntity ["ghost"] None None.

Definition doc_w1 : Siren :=
  mkSiren
    (Some [mkEntity ["owner"] None (Some [mkLink ["self"] "/u/7"]); ghost])
    (Some [mkLink ["self"] "/w/1"; mkLink ["up"] "/widgets"]).

(** [api.accept("x").sqaush()], and the world after it. *)
Definition squashed : SirenNav :=
  (SirenNav_sqaush (SirenNav_accept api "x") None w1).1.
Definition w2 : World :=
  (SirenNav_sqaush (SirenNav_accept api "x") None w1).2.

(** The world in which the document of ["/widgets"] has been received. *)
Definition w_widgets : World := mkWorld ∅ ["GET /widgets"].

(** The world in which the document of ["/w/1"] has been received. *)
Definition w_w1 : World := mkWorld ∅ ["GET /w/1"].

(** The state [squashed] starts from: its configuration refers to the
    headers object at location 0. *)
Definition st_squashed : NavState :=
  mkNavState "/api" "http://h" (mkConfig (BaseURL "http://h") (Some 0)) "/api".

(** A state whose handle is for a resource the site does not have. *)
Definition st_nowhere : NavState :=
  mkNavState "/nowhere" "http://h" (mkConfig (BaseURL "http://h") None)
    "/nowhere".

(** [api.follow("nothing").sqaush()]: its starting state is rejected. *)
Definition lost : SirenNav :=
  (SirenNav_sqaush (SirenNav_follow api "nothing" None) None w1).1.

End Journal.

(** * Properties *)

Section Properties.
Context `{T : Transport}.

Ltac run :=
  unfold mbind, M_bind, mret, M_ret, lift_ext, when, console_log, await;
  simpl.

(** ** Reduction *)

Lemma reduce_nil cur c d w : reduce cur [] c d w = (cur, w).
Proof. reflexivity. Qed.

Lemma reduce_cons st s ss c d w :
  reduce (Resolved st) (s :: ss) c d w
  = reduce (s st c d w).1 ss c d (s st c d w).2.
Proof. simpl. run. by destruct (s st c d w). Qed.

Lemma reduce_rejected e ss c d w :
  reduce (Rejected e) ss c d w = (Rejected e, w).
Proof. by destruct ss. Qed.

Lemma reduce_pending ss c d w : reduce Pending ss c d w = (Pending, w).
Proof. by destruct ss. Qed.

Lemma reduce_step_after cur s ss c d w :
  reduce cur (s :: ss) c d w
  = reduce (step_after c d (cur, w) s).1 ss c d (step_after c d (cur, w) s).2.
Proof.
  destruct cur as [st|e|]; unfold step_after; simpl fst; simpl snd.
  - apply reduce_cons.
  - by rewrite !reduce_rejected.
  - by rewrite !reduce_pending.
Qed.

Lemma reduce_app cur pre post c d w :
  reduce cur (pre ++ post) c d w
  = reduce (reduce cur pre c d w).1 post c d (reduce cur pre c d w).2.
Proof.
  revert cur w. induction pre as [|s pre IH]; intros cur w.
  - reflexivity.
  - rewrite <- app_comm_cons, !reduce_step_after. apply IH.
Qed.

Lemma reduce_is_fold cur ss c d w :
  reduce cur ss c d w = reduce_fold cur ss c d w.
Proof.
  unfold reduce_fold. revert cur w.
  induction ss as [|s ss IH]; intros cur w; [done|].
  rewrite reduce_step_after, IH. simpl.
  by destruct (step_after c d (cur, w) s).
Qed.

(** C6.  [reduce] is the left-to-right fold of the steps over the pending
    starting state: the empty list hands the starting state back as it is;
    otherwise the resolved starting state is given to the first step and
    the reduction goes on from that step's result with the remaining
    steps.  Once a step has failed, the failure is the result whatever
    steps remain, and the world is the one the failing step left: none of
    the later steps has run. *)
Theorem reduce_sequential_fold :
  (∀ cur c d w, reduce cur [] c d w = (cur, w)) ∧
  (∀ st s ss c d w,
     reduce (Resolved st) (s :: ss) c d w
     = reduce (s st c d w).1 ss c d (s st c d w).2) ∧
  (∀ cur ss c d w, reduce cur ss c d w = reduce_fold cur ss c d w) ∧
  (∀ cur pre post c d w,
     reduce cur (pre ++ post) c d w
     = reduce (reduce cur pre c d w).1 post c d (reduce cur pre c d w).2) ∧
  (∀ e later c d w, reduce (Rejected e) later c d w = (Rejected e, w)) ∧
  (∀ st s later c d w,
     match (s st c d w).1 with
     | Rejected e =>
         reduce (Resolved st) (s :: later) c d w = (Rejected e, (s st c d w).2)
     | _ => True
     end).
Proof.
  repeat split; intros.
  - apply reduce_cons.
  - apply reduce_is_fold.
  - apply reduce_app.
  - apply reduce_rejected.
  - destruct (s st c d w).1 eqn:E; try done.
    by rewrite reduce_cons, E, reduce_rejected.
Qed.

(** ** squash *)

(** C7.  [sqaush] runs the reduction once, at the time it is called: the
    navigator it returns starts from the resolved result of the original
    chain and has no steps.  A [get] on it right away hands the transport
    the same state, in the same world, as a [get] on the original
    navigator would have; this holds for every chain, so for idempotent
    ones.  Every later [get] reduces the empty step list, which returns the
    memoised state and leaves the world alone, and then only asks the
    transport for that state: the steps of the original chain are not run
    again. *)
Theorem sqaush_memoises_the_chain (n : SirenNav) (d : option bool) (w : World) :
  let r := reduce (start n) (steps n) (cache n) (or_false d) w in
  let sq := SirenNav_sqaush n d w in
  start sq.1 = r.1 ∧ steps sq.1 = [] ∧ cache sq.1 = cache n ∧ sq.2 = r.2 ∧
  resp (SirenNav_get sq.1 d sq.2).1 = resp (SirenNav_get n d w).1 ∧
  (SirenNav_get sq.1 d sq.2).2 = (SirenNav_get n d w).2 ∧
  (∀ d' w',
     reduce (start sq.1) (steps sq.1) (cache sq.1) d' w' = (start sq.1, w')) ∧
  (∀ d' w',
     let request := await (start sq.1) (λ s, getRequest s (or_false d')) w' in
     SirenNav_get sq.1 d' w' = (mkNavResponse request.1 sq.1, request.2)).
Proof.
  unfold SirenNav_sqaush, SirenNav_get. run.
  destruct (reduce (start n) (steps n) (cache n) (or_false d) w) as [p w1].
  simpl. repeat split.
  - by destruct p as [st| |]; simpl; [destruct (getRequest st _ w1)| |].
  - by destruct p as [st| |]; simpl; [destruct (getRequest st _ w1)| |].
  - intros d' w'. by destruct p as [st| |]; simpl; [destruct (getRequest st _ w')| |].
Qed.

(** ** accept *)

Lemma accept_config_run ctype cfg w :
  let l := match headers cfg with
           | Some l => l
           | None => fresh (dom (heap w))
           end in
  let v := match accept_value w cfg with
           | Some old => old +:+ ", " +:+ ctype
           | None => ctype
           end in
  ∃ hs, hs !! "Accept" = Some v ∧
    accept_config ctype cfg w
    = (mkConfig (props cfg) (Some l), mkWorld (<[l := hs]> (heap w)) (ext w)).
Proof.
  unfold accept_config, accept_value, headers_of.
  destruct cfg as [pr [l|]]; simpl; run; unfold read, write, alloc; simpl.
  - destruct (default ∅ (heap w !! l) !! "Accept") as [old|] eqn:E;
      (eexists; split; [|reflexivity]); apply lookup_insert_eq.
  - rewrite lookup_insert_eq. simpl. rewrite lookup_empty.
    eexists; split; [|simpl; by rewrite insert_insert_eq]. apply lookup_insert_eq.
Qed.


Lemma accept_run ctype st c d w :
  ∃ hs e,
    hs !! "Accept" = Some (accept_new_value w st ctype) ∧
    accept ctype st c d w
    = (Resolved (mkNavState (cur st) (root st)
         (mkConfig (props (config st)) (Some (accept_loc w st)))
         (getOr c (cur st) e).1),
       mkWorld (<[accept_loc w st := hs]> (heap w)) (getOr c (cur st) e).2).
Proof.
  assert (Hcfg : ∀ e0, ∃ hs,
    hs !! "Accept" = Some (accept_new_value w st ctype) ∧
    accept_config ctype (config st) (mkWorld (heap w) e0)
    = (mkConfig (props (config st)) (Some (accept_loc w st)),
       mkWorld (<[accept_loc w st := hs]> (heap w)) e0)).
  { intros e0.
    destruct (accept_config_run ctype (config st) (mkWorld (heap w) e0))
      as (hs & Hv & Hrun).
    exists hs. split; [exact Hv | exact Hrun]. }
  unfold accept. run.
  destruct d; simpl;
    match goal with
    | |- context [accept_config _ _ ?w2] =>
        destruct (Hcfg (ext w2)) as (hs & Hv & Hrun)
    end; simpl in Hrun.
  - exists hs. eexists. split; [exact Hv|].
    rewrite Hrun; simpl.
    match goal with
    | |- (let (_, _) := (let (_, _) := getOr _ _ ?x in _) in _) = _ =>
        instantiate (1 := x); by destruct (getOr c (cur st) x)
    end.
  - destruct w as [hp e0]; simpl in *.
    exists hs. eexists. split; [exact Hv|].
    rewrite Hrun; simpl.
    match goal with
    | |- (let (_, _) := (let (_, _) := getOr _ _ ?x in _) in _) = _ =>
        instantiate (1 := x); by destruct (getOr c (cur st) x)
    end.
Qed.

(** ** follow: collecting the candidates *)

Lemma push_entity_run rel st c d possible e w :
  ∃ extra w',
    push_entity rel st c d possible e w = (possible ++ extra, w')
    ∧ heap w' = heap w
    ∧ map shape extra = option_list (entity_candidate rel st e)
    ∧ Forall (built_from st c) extra.
Proof.
  unfold push_entity, entity_candidate.
  destruct (has_rel rel (ent_rel e)); simpl.
  2: { exists [], w. by rewrite app_nil_r. }
  destruct (ent_href e) as [href|]; [|destruct (getSelf e) as [self|];
    [destruct (truthy_string self)|]]; run;
    try (exists [], w; by rewrite app_nil_r).
  - destruct d; simpl;
      match goal with
      | |- context [getOr c href ?x] =>
          destruct (getOr c href x) as [h e'] eqn:E
      end;
      (eexists [_], _; split; [reflexivity|]; split; [reflexivity|];
       split; [reflexivity|]; constructor; [|constructor];
       split; [reflexivity|]; eexists; simpl; by rewrite E).
  - destruct d; simpl;
      match goal with
      | |- context [getOr c self ?x] =>
          destruct (getOr c self x) as [h e'] eqn:E
      end;
      (eexists [_], _; split; [reflexivity|]; split; [reflexivity|];
       split; [reflexivity|]; constructor; [|constructor];
       split; [reflexivity|]; eexists; simpl; by rewrite E).
Qed.

Lemma push_link_run rel st c d possible l w :
  ∃ extra w',
    push_link rel st c d possible l w = (possible ++ extra, w')
    ∧ heap w' = heap w
    ∧ map shape extra = option_list (link_candidate rel st l)
    ∧ Forall (built_from st c) extra.
Proof.
  unfold push_link, link_candidate.
  destruct (has_rel rel (link_rel l)); simpl.
  2: { exists [], w. by rewrite app_nil_r. }
  run. destruct d; simpl;
    match goal with
    | |- context [getOr c (link_href l) ?x] =>
        destruct (getOr c (link_href l) x) as [h e'] eqn:E
    end;
    (eexists [_], _; split; [reflexivity|]; split; [reflexivity|];
     split; [reflexivity|]; constructor; [|constructor];
     split; [reflexivity|]; eexists; simpl; by rewrite E).
Qed.

Lemma forEach_candidates {A} (body : list NavState → A → M (list NavState))
    (cand : A → option (URI * Config)) st c :
  (∀ acc x w, ∃ extra w',
      body acc x w = (acc ++ extra, w') ∧ heap w' = heap w
      ∧ map shape extra = option_list (cand x)
      ∧ Forall (built_from st c) extra) →
  ∀ xs acc w, ∃ extra w',
      forEach xs body acc w = (acc ++ extra, w') ∧ heap w' = heap w
      ∧ map shape extra = omap cand xs
      ∧ Forall (built_from st c) extra.
Proof.
  intros Hbody xs. induction xs as [|x xs IH]; intros acc w.
  - exists [], w. by rewrite app_nil_r.
  - simpl. run.
    destruct (Hbody acc x w) as (ex1 & w1 & -> & Hh1 & Hs1 & Hb1).
    destruct (IH (acc ++ ex1) w1) as (ex2 & w2 & -> & Hh2 & Hs2 & Hb2).
    exists (ex1 ++ ex2), w2. repeat split.
    + by rewrite app_assoc.
    + congruence.
    + rewrite map_app, Hs1, Hs2. by destruct (cand x).
    + by apply Forall_app.
Qed.

Lemma collect_run rel st c d siren w :
  ∃ possible w',
    collect rel st c d siren w = (possible, w')
    ∧ heap w' = heap w
    ∧ map shape possible = candidates rel st siren
    ∧ Forall (built_from st c) possible.
Proof.
  unfold collect, candidates. run.
  destruct (forEach_candidates _ _ st c (push_entity_run rel st c d)
              (default [] (entities siren)) [] w)
    as (ex1 & w1 & -> & Hh1 & Hs1 & Hb1).
  destruct (forEach_candidates _ _ st c (push_link_run rel st c d)
              (default [] (links siren)) ([] ++ ex1) w1)
    as (ex2 & w2 & -> & Hh2 & Hs2 & Hb2).
  exists (ex1 ++ ex2), w2. repeat split.
  - congruence.
  - by rewrite map_app, Hs1, Hs2.
  - by apply Forall_app.
Qed.

(** ** follow: the cardinality policy *)

Lemma select_run rel first d siren possible w :
  ∃ w', select rel first d siren possible w
        = (verdict rel first siren possible, w')
        ∧ heap w' = heap w.
Proof.
  unfold select, verdict. destruct possible as [|p rest]; run.
  - by eexists.
  - destruct ((1 <? S (length rest))%nat && negb (or_false first)); run.
    + by eexists.
    + destruct d; by eexists.
Qed.

Lemma follow_then_run rel first st c d siren w :
  ∃ w', follow_then rel first st c d siren w
        = (verdict rel first siren (possible_at rel st c d siren w), w')
        ∧ heap w' = heap w.
Proof.
  unfold follow_then, possible_at.
  unfold mbind at 1 2, M_bind.
  destruct (when d (console_log ("Follow '" +:+ rel +:+ "':")) w)
    as [[] wl] eqn:El.
  assert (heap wl = heap w) as Hl.
  { revert El. run. destruct d; intros [= <-]; done. }
  simpl.
  destruct (collect_run rel st c d siren wl) as (possible & wc & -> & Hc & _).
  destruct (select_run rel first d siren possible wc) as (w' & -> & Hs).
  exists w'. split; [done | congruence].
Qed.

Lemma follow_run rel first st c d w siren w1 :
  getSiren st w = (Resolved siren, w1) →
  follow rel first st c d w = follow_then rel first st c d siren w1.
Proof. intros Hdoc. unfold follow. run. by rewrite Hdoc. Qed.

Lemma possible_at_candidates rel st c d siren w :
  map shape (possible_at rel st c d siren w) = candidates rel st siren
  ∧ Forall (built_from st c) (possible_at rel st c d siren w).
Proof.
  unfold possible_at.
  destruct (collect_run rel st c d siren
              (when d (console_log ("Follow '" +:+ rel +:+ "':")) w).2)
    as (possible & wc & -> & _ & Hs & Hb).
  done.
Qed.

(** C3.  Given the document of the current state, [follow] fails exactly
    when the list of candidates is empty, with NoMatch carrying the
    relation and the document, or when it has more than one element and
    [first] is false or unset, with AmbiguousMatch; in every other case it
    resolves.  The candidates are as many as the document has matching
    items. *)
Theorem follow_fails_iff rel first st c d w siren w1 :
  getSiren st w = (Resolved siren, w1) →
  let possible := possible_at rel st c d siren w1 in
  let r := (follow rel first st c d w).1 in
  length possible = length (candidates rel st siren) ∧
  (∀ e, r = Rejected e ↔
     (possible = [] ∧ e = NoMatch rel siren) ∨
     (1 < length possible ∧ or_false first = false
      ∧ e = AmbiguousMatch rel siren)) ∧
  ((∃ st', r = Resolved st') ↔
     ¬ (possible = [] ∨ (1 < length possible ∧ or_false first = false))).
Proof.
  intros Hdoc possible r. subst r.
  rewrite (follow_run _ _ _ _ _ _ _ _ Hdoc).
  destruct (follow_then_run rel first st c d siren w1) as (w' & -> & _).
  fold possible. simpl. split.
  { rewrite <- (proj1 (possible_at_candidates rel st c d siren w1)).
    by rewrite length_map. }
  unfold verdict. destruct possible as [|p [|q rest]]; simpl.
  - split.
    + intros e; split; [intros [= <-]; by left|].
      intros [[_ ->]|(Hlen & _)]; [done | simpl in Hlen; lia].
    + split; [intros [? [=]] | intros Hn; exfalso; apply Hn; by left].
  - split.
    + intros e; split; [done|].
      intros [[[=] _]|(Hlen & _)]; lia.
    + split; [intros _ [[=]|[Hlen _]]; lia | by eexists].
  - destruct (or_false first); simpl.
    + split.
      * intros e; split; [done|]. intros [[[=] _]|(_ & [=] & _)].
      * split; [intros _ [[=]|[_ [=]]] | by eexists].
    + split.
      * intros e; split; [intros [= <-]; right; repeat split; lia|].
        intros [[[=] _]|(_ & _ & ->)]; done.
      * split; [intros [? [=]] | intros Hn; exfalso; apply Hn; right; split; [lia|done]].
Qed.

(** C4.  The candidates are listed with the matching sub-entities first
    and the matching top-level links after them, each group in the order
    of the document.  Whenever [follow] resolves, it resolves to the first
    candidate of that list: a single candidate is taken whatever [first]
    is, and with two or more candidates and [first] true the first one is
    taken. *)
Theorem follow_takes_first_candidate rel first st c d w siren w1 :
  getSiren st w = (Resolved siren, w1) →
  let possible := possible_at rel st c d siren w1 in
  let r := (follow rel first st c d w).1 in
  map shape possible
  = omap (entity_candidate rel st) (default [] (entities siren)) ++
    omap (link_candidate rel st) (default [] (links siren)) ∧
  (∀ st', r = Resolved st' → head possible = Some st') ∧
  (∀ only, possible = [only] → r = Resolved only) ∧
  (∀ c0 c1 rest,
     possible = c0 :: c1 :: rest → or_false first = true → r = Resolved c0).
Proof.
  intros Hdoc possible r. subst r.
  rewrite (follow_run _ _ _ _ _ _ _ _ Hdoc).
  destruct (follow_then_run rel first st c d siren w1) as (w' & -> & _).
  fold possible. simpl. split.
  { apply possible_at_candidates. }
  unfold verdict. repeat split.
  - intros st'. destruct possible as [|p rest]; [done|].
    destruct (_ && _); [done|]. by intros [= ->].
  - by intros only ->.
  - intros c0 c1 rest -> Hfirst. simpl. by rewrite Hfirst.
Qed.

(** ** follow: what a candidate is made of *)

Lemma single_candidate st c extra u cfg :
  map shape extra = [(u, cfg)] →
  Forall (built_from st c) extra →
  ∃ h, extra = [mkNavState u (root st) cfg h]
       ∧ handle_for c (mkNavState u (root st) cfg h).
Proof.
  destruct extra as [|[u' r' cfg' h] [|? ?]]; try done.
  intros [= -> ->] Hb. apply Forall_cons in Hb as [[Hr Hh] _].
  simpl in Hr. subst r'. by exists h.
Qed.

(** C5.  One turn of the loop over the sub-entities, for a sub-entity
    that carries the relation: with a direct ["href"] it pushes a state
    whose current URI is that href and whose configuration is the one of
    the current state; without ["href"] but with a self URI it pushes a
    state whose current URI is the self URI and whose configuration is the
    sub-entity itself.  One turn of the loop over the top-level links, for
    a link that carries the relation, pushes a state whose current URI is
    the link's href and whose configuration is the one of the current
    state.  Every candidate keeps the root and holds a handle of the cache
    for its own URI; the whole list is the one the specification
    describes. *)
Theorem follow_builds_candidates rel st c d :
  (∀ possible e w href,
     has_rel rel (ent_rel e) = true → ent_href e = Some href →
     ∃ h w',
       push_entity rel st c d possible e w
       = (possible ++ [mkNavState href (root st) (config st) h], w')
       ∧ handle_for c (mkNavState href (root st) (config st) h)) ∧
  (∀ possible e w self,
     has_rel rel (ent_rel e) = true → ent_href e = None →
     self_reference e = Some self →
     ∃ h w',
       push_entity rel st c d possible e w
       = (possible ++
            [mkNavState self (root st) (mkConfig (OfEntity e) None) h], w')
       ∧ handle_for c
           (mkNavState self (root st) (mkConfig (OfEntity e) None) h)) ∧
  (∀ possible l w,
     has_rel rel (link_rel l) = true →
     ∃ h w',
       push_link rel st c d possible l w
       = (possible ++
            [mkNavState (link_href l) (root st) (config st) h], w')
       ∧ handle_for c (mkNavState (link_href l) (root st) (config st) h)) ∧
  (∀ siren w,
     map shape (possible_at rel st c d siren w) = candidates rel st siren).
Proof.
  repeat split.
  - intros possible e w href Hrel Hhref.
    destruct (push_entity_run rel st c d possible e w)
      as (extra & w' & -> & _ & Hs & Hb).
    unfold entity_candidate in Hs. rewrite Hrel, Hhref in Hs. simpl in Hs.
    destruct (single_candidate _ _ _ _ _ Hs Hb) as (h & -> & Hh).
    by exists h, w'.
  - intros possible e w self Hrel Hhref Hself.
    destruct (push_entity_run rel st c d possible e w)
      as (extra & w' & -> & _ & Hs & Hb).
    unfold entity_candidate in Hs. rewrite Hrel, Hhref in Hs.
    unfold self_reference in Hself.
    destruct (getSelf e) as [s|]; [|done].
    destruct (truthy_string s); [|done].
    injection Hself as ->. simpl in Hs.
    destruct (single_candidate _ _ _ _ _ Hs Hb) as (h & -> & Hh).
    by exists h, w'.
  - intros possible l w Hrel.
    destruct (push_link_run rel st c d possible l w)
      as (extra & w' & -> & _ & Hs & Hb).
    unfold link_candidate in Hs. rewrite Hrel in Hs. simpl in Hs.
    destruct (single_candidate _ _ _ _ _ Hs Hb) as (h & -> & Hh).
    by exists h, w'.
  - intros siren w. apply possible_at_candidates.
Qed.

Lemma omap_all_None {A B} (f : A → option B) (xs : list A) :
  (∀ x, x ∈ xs → f x = None) → omap f xs = [].
Proof.
  induction xs as [|x xs IH]; intros Hall; [done|].
  simpl. rewrite (Hall x) by left. apply IH.
  intros y Hy. apply Hall. by right.
Qed.

(** C10.  A sub-entity that carries the relation but has neither a direct
    ["href"] nor a self URI is passed over: its turn of the loop leaves
    the list of candidates and the world as they were, and nothing is
    thrown.  So when every item of the document that carries the relation
    is such a sub-entity, [follow] fails with NoMatch. *)
Theorem follow_skips_entity_without_reference rel st c d :
  (∀ possible e w,
     has_rel rel (ent_rel e) = true → ent_href e = None →
     self_reference e = None →
     push_entity rel st c d possible e w = (possible, w)) ∧
  (∀ first siren w w1,
     getSiren st w = (Resolved siren, w1) →
     (∀ e, e ∈ default [] (entities siren) →
           has_rel rel (ent_rel e) = true →
           ent_href e = None ∧ self_reference e = None) →
     (∀ l, l ∈ default [] (links siren) → has_rel rel (link_rel l) = false) →
     (follow rel first st c d w).1 = Rejected (NoMatch rel siren)).
Proof.
  split.
  - intros possible e w Hrel Hhref Hself.
    unfold push_entity. rewrite Hrel, Hhref. simpl.
    unfold self_reference in Hself.
    destruct (getSelf e) as [s|]; [|done].
    by destruct (truthy_string s).
  - intros first siren w w1 Hdoc Hents Hlinks.
    rewrite (follow_run _ _ _ _ _ _ _ _ Hdoc).
    destruct (follow_then_run rel first st c d siren w1) as (w' & -> & _).
    simpl.
    destruct (possible_at_candidates rel st c d siren w1) as [Hs _].
    assert (candidates rel st siren = []) as Hnone.
    { unfold candidates. rewrite !omap_all_None; [done| |].
      - intros l Hl. unfold link_candidate. by rewrite (Hlinks l Hl).
      - intros e He. unfold entity_candidate.
        destruct (has_rel rel (ent_rel e)) eqn:Hrel; [|done].
        destruct (Hents e He Hrel) as [-> Hself].
        unfold self_reference in Hself.
        destruct (getSelf e) as [s|]; [|done].
        by destruct (truthy_string s). }
    rewrite Hnone in Hs.
    by destruct (possible_at rel st c d siren w1).
Qed.

(** ** accept: the Accept header *)

Lemma accept_result ctype st c d w :
  ∃ st1 w1,
    accept ctype st c d w = (Resolved st1, w1)
    ∧ cur st1 = cur st ∧ root st1 = root st
    ∧ props (config st1) = props (config st)
    ∧ handle_for c st1
    ∧ accept_value w1 (config st1) = Some (accept_new_value w st ctype).
Proof.
  destruct (accept_run ctype st c d w) as (hs & e & Hv & ->).
  eexists _, _. split; [reflexivity|]. simpl. repeat split.
  - by exists e.
  - unfold accept_value, headers_of. simpl.
    by rewrite lookup_insert_eq.
Qed.

(** C8 (amended).  Each [accept(contentType)] step resolves, keeps the
    current URI, the root and the other properties of the configuration,
    and leaves under ["Accept"] the former value followed by [", "] and
    [contentType], or [contentType] alone when there was no former value.
    So when the chain of a navigator resolves to a state whose
    configuration has no Accept value, [accept(a)] then [accept(b)] on it
    yields the value [a ++ ", " ++ b], and when it has the value [v] they
    yield [v ++ ", " ++ a ++ ", " ++ b]: the order of the calls is kept. *)
Theorem accept_appends_in_call_order n a b d w st w1 :
  reduce (start n) (steps n) (cache n) d w = (Resolved st, w1) →
  let n' := SirenNav_accept (SirenNav_accept n a) b in
  (∃ st2 w2,
     reduce (start n') (steps n') (cache n') d w = (Resolved st2, w2)
     ∧ accept_value w2 (config st2)
       = Some (match accept_value w1 (config st) with
               | Some v => (v +:+ ", " +:+ a) +:+ ", " +:+ b
               | None => a +:+ ", " +:+ b
               end)) ∧
  (∀ ctype st0 c d0 w0, ∃ st' w',
     accept ctype st0 c d0 w0 = (Resolved st', w')
     ∧ cur st' = cur st0 ∧ root st' = root st0
     ∧ props (config st') = props (config st0)
     ∧ accept_value w' (config st')
       = Some (match accept_value w0 (config st0) with
               | Some v => v +:+ ", " +:+ ctype
               | None => ctype
               end)).
Proof.
  intros Hres n'. split.
  - subst n'. unfold SirenNav_accept, SirenNav_do. simpl.
    rewrite <- app_assoc, reduce_app, Hres. simpl fst; simpl snd.
    simpl app. rewrite reduce_cons.
    destruct (accept_result a st (cache n) d w1)
      as (st1 & wa & -> & _ & _ & _ & _ & Ha).
    simpl fst; simpl snd. rewrite reduce_cons.
    destruct (accept_result b st1 (cache n) d wa)
      as (st2 & wb & -> & _ & _ & _ & _ & Hb).
    simpl. exists st2, wb. split; [done|].
    rewrite Hb. unfold accept_new_value. rewrite Ha.
    unfold accept_new_value. by destruct (accept_value w1 (config st)).
  - intros ctype st0 c d0 w0.
    destruct (accept_result ctype st0 c d0 w0)
      as (st' & w' & -> & ? & ? & ? & _ & Hv).
    by exists st', w'.
Qed.

(** ** Cache handles *)

Lemma follow_result_built rel first st c d w st' w' :
  follow rel first st c d w = (Resolved st', w') → built_from st c st'.
Proof.
  unfold follow. run.
  destruct (getSiren st w) as [[siren|e|] w1]; try done.
  destruct (follow_then_run rel first st c d siren w1) as (w2 & -> & _).
  intros [= Hv _].
  destruct (possible_at_candidates rel st c d siren w1) as [_ Hb].
  unfold verdict in Hv.
  destruct (possible_at rel st c d siren w1) as [|p rest]; [done|].
  destruct (_ && _); [done|]. injection Hv as <-.
  by apply Forall_cons in Hb as [? _].
Qed.

Lemma engine_step_handle s c st d w st' w' :
  engine_step s → s st c d w = (Resolved st', w') → handle_for c st'.
Proof.
  intros [ctype|rel first] Hrun.
  - destruct (accept_result ctype st c d w) as (st1 & w1 & E & _ & _ & _ & Hh & _).
    rewrite E in Hrun. by injection Hrun as <- _.
  - by destruct (follow_result_built _ _ _ _ _ _ _ _ Hrun).
Qed.

Lemma reduce_engine_steps ss c d : Forall engine_step ss →
  ∀ cur w st',
    (∀ st, cur = Resolved st → handle_for c st) →
    (reduce cur ss c d w).1 = Resolved st' → handle_for c st'.
Proof.
  induction 1 as [|s ss Hs _ IH]; intros cur w st' Hcur.
  - simpl. intros ->. by apply Hcur.
  - destruct cur as [st|e|].
    + rewrite reduce_cons. apply IH. intros st1 E.
      destruct (s st c d w) as [p ws] eqn:Es. simpl in E. subst p.
      by eapply engine_step_handle.
    + by rewrite reduce_rejected.
    + by rewrite reduce_pending.
Qed.

Lemma engine_nav_inv c n :
  engine_nav c n →
  cache n = c ∧ Forall engine_step (steps n)
  ∧ (∀ st, start n = Resolved st → handle_for c st).
Proof.
  induction 1 as [url base w|n ctype _ (Hc & Hs & Hst)
                 |n rel first _ (Hc & Hs & Hst)
                 |n url w _ (Hc & Hs & Hst)|n d w _ (Hc & Hs & Hst)].
  - unfold SirenNav_create. run.
    destruct (getOr c url (ext w)) as [h e'] eqn:E. simpl.
    repeat split; [constructor|]. intros st [= <-].
    exists (ext w). simpl. by rewrite E.
  - simpl. repeat split; [done| |done].
    apply Forall_app. split; [done|]. repeat constructor.
  - simpl. repeat split; [done| |done].
    apply Forall_app. split; [done|]. repeat constructor.
  - unfold SirenNav_goto. run. destruct (start n) as [st0|e|]; simpl.
    + destruct (getOr (cache n) url (ext w)) as [h e'] eqn:E. simpl.
      repeat split; [done|constructor|]. intros st [= <-].
      exists (ext w). simpl. by rewrite <- Hc, E.
    + repeat split; [done|constructor|done].
    + repeat split; [done|constructor|done].
  - unfold SirenNav_sqaush. run.
    destruct (reduce (start n) (steps n) (cache n) (or_false d) w)
      as [p w1] eqn:E. simpl.
    repeat split; [done|constructor|]. intros st ->.
    rewrite Hc in E.
    eapply (reduce_engine_steps _ c _ Hs (start n) w); [done|].
    by rewrite E.
Qed.

(** C9.  In every navigator the engine builds from one shared cache with
    [create], [accept], [follow], [goto] and [sqaush], the starting state
    and the state the chain resolves to hold a handle that the cache's
    [getOr] returned for the state's own current URI; so does every
    candidate [follow] builds on the way. *)
Theorem states_hold_handle_of_own_uri c n :
  engine_nav c n →
  (∀ st, start n = Resolved st → handle_for c st) ∧
  (∀ d w st,
     (reduce (start n) (steps n) (cache n) d w).1 = Resolved st →
     handle_for c st) ∧
  (∀ rel st d siren w,
     Forall (handle_for c) (possible_at rel st c d siren w)).
Proof.
  intros Hn. destruct (engine_nav_inv c n Hn) as (Hc & Hs & Hst).
  repeat split; [done| |].
  - intros d w st. rewrite Hc. by apply reduce_engine_steps.
  - intros rel st d siren w.
    destruct (possible_at_candidates rel st c d siren w) as [_ Hb].
    eapply Forall_impl; [exact Hb|]. by intros ? [_ ?].
Qed.

(** ** Sharing of the headers object, and goto *)

(** When the state already has a headers object, [accept] writes into that
    very object: the configuration of the state it was given reads the new
    value afterwards. *)
Lemma accept_shares_headers_object ctype st c d w l :
  headers (config st) = Some l →
  accept_value (accept ctype st c d w).2 (config st)
  = Some (accept_new_value w st ctype).
Proof.
  intros Hl. destruct (accept_run ctype st c d w) as (hs & e & Hv & ->).
  unfold accept_value, headers_of, accept_loc. rewrite Hl. simpl.
  by rewrite lookup_insert_eq.
Qed.

(** When the state has no headers object, the one [accept] writes to is
    new, and every object of the store is left as it was. *)
Lemma accept_fresh_headers_frame ctype st c d w l :
  headers (config st) = None → l ∈ dom (heap w) →
  heap (accept ctype st c d w).2 !! l = heap w !! l.
Proof.
  intros Hnone Hl. destruct (accept_run ctype st c d w) as (hs & e & Hv & ->).
  unfold accept_loc. rewrite Hnone. simpl.
  apply lookup_insert_ne. intros <-.
  by apply (is_fresh (dom (heap w))).
Qed.

(** [goto] depends on the starting state and the cache only. *)
Lemma goto_ignores_steps n url w :
  SirenNav_goto n url w
  = SirenNav_goto (mkSirenNav (start n) [] (cache n)) url w.
Proof. reflexivity. Qed.

Lemma goto_from_resolved_start n url w st :
  start n = Resolved st →
  ∃ h, start (SirenNav_goto n url w).1
       = Resolved (mkNavState url (root st) (config st) h)
       ∧ steps (SirenNav_goto n url w).1 = []
       ∧ heap (SirenNav_goto n url w).2 = heap w.
Proof.
  intros Hst. unfold SirenNav_goto. rewrite Hst. run.
  destruct (getOr (cache n) url (ext w)) as [h e']. simpl. by exists h.
Qed.

(** * Further properties of the engine *)

(** ** Appending a step *)

Lemma reduce_snoc cur ss s c d w :
  reduce cur (ss ++ [s]) c d w
  = await (reduce cur ss c d w).1 (λ st, s st c d) (reduce cur ss c d w).2.
Proof.
  rewrite reduce_app.
  destruct (reduce cur ss c d w) as [[st|e|] w1]; simpl fst; simpl snd.
  - rewrite reduce_cons. simpl. by destruct (s st c d w1).
  - by rewrite reduce_rejected.
  - by rewrite reduce_pending.
Qed.

(** X1.  [do(step)] returns a navigator with the same starting state and
    cache whose evaluation is the evaluation of the receiver followed by
    [step] on the state it resolves to; when the receiver's chain is
    rejected or never settles, so is the longer chain, in the same world,
    and [step] is not run. *)
Theorem do_runs_the_step_last n s d w :
  let r := reduce (start n) (steps n) (cache n) d w in
  let n' := SirenNav_do n s in
  start n' = start n ∧ cache n' = cache n ∧
  reduce (start n') (steps n') (cache n') d w
  = match r.1 with
    | Resolved st => s st (cache n) d r.2
    | Rejected e => (Rejected e, r.2)
    | Pending => (Pending, r.2)
    end.
Proof.
  simpl. repeat split. rewrite reduce_snoc.
  by destruct (reduce (start n) (steps n) (cache n) d w) as [[st|e|] w1].
Qed.

(** X10.  [accept] never changes where a navigator points: [getURL] on
    [n.accept(ctype)] settles the way [getURL] on [n] does, with the same
    URI or the same error. *)
Theorem accept_keeps_the_url n ctype d w :
  (SirenNav_getURL (SirenNav_accept n ctype) d w).1
  = (SirenNav_getURL n d w).1.
Proof.
  unfold SirenNav_getURL, SirenNav_accept, SirenNav_do. simpl. run.
  rewrite reduce_snoc.
  destruct (reduce (start n) (steps n) (cache n) (or_false d) w)
    as [[st|e|] w1]; simpl; try done.
  destruct (accept_result ctype st (cache n) (or_false d) w1)
    as (st1 & wa & -> & Hcur & _).
  simpl. by rewrite Hcur.
Qed.

(** ** The root *)

Lemma engine_step_root s c st d w st' w' :
  engine_step s → s st c d w = (Resolved st', w') → root st' = root st.
Proof.
  intros [ctype|rel first] Hrun.
  - destruct (accept_result ctype st c d w) as (st1 & w1 & E & _ & Hr & _).
    rewrite E in Hrun. by injection Hrun as <- _.
  - by destruct (follow_result_built _ _ _ _ _ _ _ _ Hrun).
Qed.

Lemma reduce_engine_root ss c d base : Forall engine_step ss →
  ∀ cur w st',
    (∀ st, cur = Resolved st → root st = base) →
    (reduce cur ss c d w).1 = Resolved st' → root st' = base.
Proof.
  induction 1 as [|s ss Hs _ IH]; intros cur w st' Hcur.
  - simpl. intros ->. by apply Hcur.
  - destruct cur as [st|e|].
    + rewrite reduce_cons. apply IH. intros st1 E.
      destruct (s st c d w) as [p ws] eqn:Es. simpl in E. subst p.
      rewrite (engine_step_root _ _ _ _ _ _ _ Hs Es). by apply Hcur.
    + by rewrite reduce_rejected.
    + by rewrite reduce_pending.
Qed.

Lemma rooted_nav_inv c base n :
  rooted_nav c base n →
  Forall engine_step (steps n)
  ∧ (∀ st, start n = Resolved st → root st = base).
Proof.
  induction 1 as [url w|n ctype _ (Hs & Hst)|n rel first _ (Hs & Hst)
                 |n url w _ (Hs & Hst)|n d w _ (Hs & Hst)].
  - unfold SirenNav_create. run.
    destruct (getOr c url (ext w)) as [h e']. simpl.
    split; [constructor|]. by intros st [= <-].
  - simpl. split; [|done].
    apply Forall_app. split; [done|]. repeat constructor.
  - simpl. split; [|done].
    apply Forall_app. split; [done|]. repeat constructor.
  - unfold SirenNav_goto. run. destruct (start n) as [st0|e|]; simpl.
    + destruct (getOr (cache n) url (ext w)) as [h e']. simpl.
      split; [constructor|]. intros st [= <-]. simpl. by apply Hst.
    + split; [constructor|done].
    + split; [constructor|done].
  - unfold SirenNav_sqaush. run.
    destruct (reduce (start n) (steps n) (cache n) (or_false d) w)
      as [p w1] eqn:E. simpl.
    split; [constructor|]. intros st ->.
    eapply (reduce_engine_root _ _ _ base Hs (start n) w); [done|].
    by rewrite E.
Qed.

(** X2.  The root given to [create] is the root of every state of the
    navigators built from it with [accept], [follow], [goto] and [sqaush]:
    of the starting state and of the state the chain resolves to. *)
Theorem root_is_fixed_at_creation c base n :
  rooted_nav c base n →
  (∀ st, start n = Resolved st → root st = base) ∧
  (∀ d w st,
     (reduce (start n) (steps n) (cache n) d w).1 = Resolved st →
     root st = base).
Proof.
  intros Hn. destruct (rooted_nav_inv c base n Hn) as (Hs & Hst).
  split; [done|]. intros d w st. by apply reduce_engine_root.
Qed.

(** ** follow: the store, and failures of the transport *)

Lemma candidate_origin rel st siren u cfg :
  (u, cfg) ∈ candidates rel st siren →
  cfg = config st
  ∨ ∃ e, e ∈ default [] (entities siren) ∧ ent_href e = None
         ∧ cfg = mkConfig (OfEntity e) None.
Proof.
  unfold candidates. rewrite elem_of_app, !list_elem_of_omap.
  intros [(e & He & Hc)|(l & _ & Hc)].
  - unfold entity_candidate in Hc.
    destruct (has_rel rel (ent_rel e)); [|done].
    destruct (ent_href e) as [href|] eqn:Hhref.
    + injection Hc as _ <-. by left.
    + destruct (getSelf e) as [self|]; [|done].
      destruct (truthy_string self); [|done].
      injection Hc as _ <-. right. by exists e.
  - unfold link_candidate in Hc.
    destruct (has_rel rel (link_rel l)); [|done].
    injection Hc as _ <-. by left.
Qed.

(** X3.  Given the document of the current state, [follow] writes nothing
    to the store of headers objects; the state it resolves to has the root
    of the current state, and its configuration is either the
    configuration of the current state, shared as it is, or a sub-entity
    of the document that has no ["href"], with no headers. *)
Theorem follow_writes_no_configuration rel first st c d w siren w1 :
  getSiren st w = (Resolved siren, w1) →
  heap (follow rel first st c d w).2 = heap w1 ∧
  (∀ st', (follow rel first st c d w).1 = Resolved st' →
     root st' = root st ∧
     (config st' = config st
      ∨ ∃ e, e ∈ default [] (entities siren) ∧ ent_href e = None
             ∧ config st' = mkConfig (OfEntity e) None)).
Proof.
  intros Hdoc. rewrite (follow_run _ _ _ _ _ _ _ _ Hdoc).
  destruct (follow_then_run rel first st c d siren w1) as (w' & -> & Hh).
  simpl. split; [done|]. intros st' Hv.
  destruct (possible_at_candidates rel st c d siren w1) as [Hs Hb].
  unfold verdict in Hv.
  destruct (possible_at rel st c d siren w1) as [|p rest]; [done|].
  destruct (_ && _); [done|]. injection Hv as ->.
  apply Forall_cons in Hb as [[Hr _] _]. split; [done|].
  apply (candidate_origin rel st siren (cur st')).
  rewrite <- Hs. simpl. left.
Qed.

(** X8.  When the transport fails to deliver the document of the current
    state, [follow] is rejected with the transport's error in the world
    the transport left: no candidate is built and the cache is not asked.
    A chain that goes on after this step is rejected with the same error
    and runs none of its later steps. *)
Theorem failed_fetch_rejects_the_chain rel first later st c d w e w1 :
  getSiren st w = (Rejected e, w1) →
  follow rel first st c d w = (Rejected e, w1) ∧
  reduce (Resolved st) (follow rel first :: later) c d w = (Rejected e, w1).
Proof.
  intros Hdoc.
  assert (follow rel first st c d w = (Rejected e, w1)) as Hf.
  { unfold follow. run. by rewrite Hdoc. }
  split; [done|]. rewrite reduce_cons, Hf. simpl. apply reduce_rejected.
Qed.

(** ** The debug flag *)

Lemma verdict_outline rel first siren st c p1 p0 :
  map shape p1 = map shape p0 →
  Forall (built_from st c) p1 → Forall (built_from st c) p0 →
  then_ (verdict rel first siren p1) outline
  = then_ (verdict rel first siren p0) outline.
Proof.
  intros Hs Hb1 Hb0. unfold verdict.
  assert (length p1 = length p0) as Hlen.
  { by rewrite <- (length_map shape p1), Hs, length_map. }
  destruct p1 as [|a1 r1], p0 as [|a0 r0]; try done.
  rewrite Hlen. destruct (_ && _); [done|]. simpl.
  apply Forall_cons in Hb1 as [[Hr1 _] _].
  apply Forall_cons in Hb0 as [[Hr0 _] _].
  injection Hs as Hcur Hcfg _. unfold outline. congruence.
Qed.

Lemma accept_outline ctype st c d w :
  then_ (accept ctype st c d w).1 outline
  = Resolved (cur st, root st,
              mkConfig (props (config st)) (Some (accept_loc w st)))
  ∧ ∃ hs, heap (accept ctype st c d w).2 = <[accept_loc w st := hs]> (heap w)
          ∧ hs = <["Accept" := accept_new_value w st ctype]>
                   (default ∅ (headers_of w (config st))).
Proof.
  assert (Hcfg : ∀ e0,
    accept_config ctype (config st) (mkWorld (heap w) e0)
    = (mkConfig (props (config st)) (Some (accept_loc w st)),
       mkWorld (<[accept_loc w st :=
                    <["Accept" := accept_new_value w st ctype]>
                      (default ∅ (headers_of w (config st)))]> (heap w)) e0)).
  { intros e0.
    unfold accept_config, accept_loc, accept_new_value, accept_value,
      headers_of.
    destruct (config st) as [pr [l|]]; simpl; run; unfold read, write, alloc;
      simpl.
    - by destruct (default ∅ (heap w !! l) !! "Accept").
    - rewrite lookup_insert_eq. simpl. rewrite lookup_empty. simpl.
      by rewrite insert_insert_eq. }
  unfold accept. run.
  destruct d; simpl;
    match goal with
    | |- context [accept_config _ _ ?w2] =>
        pose proof (Hcfg (ext w2)) as Hrun
    end; simpl in Hrun.
  - rewrite Hrun; simpl.
    match goal with
    | |- context [getOr c (cur st) ?x] => destruct (getOr c (cur st) x)
    end.
    simpl. split; [done|]. by eexists.
  - destruct w as [hp e0]; simpl in *.
    rewrite Hrun; simpl.
    match goal with
    | |- context [getOr c (cur st) ?x] => destruct (getOr c (cur st) x)
    end.
    simpl. split; [done|]. by eexists.
Qed.

(** X9.  The debug flag changes what is printed and nothing else: with
    or without it, [accept] resolves to a state with the same current
    URI, root and configuration and leaves the same store, and the
    callback of [follow] settles the same way, on a state with the same
    current URI, root and configuration or on the same error, and leaves
    the same store. *)
Theorem debug_changes_no_outcome :
  (∀ ctype st c w,
     then_ (accept ctype st c true w).1 outline
     = then_ (accept ctype st c false w).1 outline
     ∧ heap (accept ctype st c true w).2 = heap (accept ctype st c false w).2) ∧
  (∀ rel first st c siren w,
     then_ (follow_then rel first st c true siren w).1 outline
     = then_ (follow_then rel first st c false siren w).1 outline
     ∧ heap (follow_then rel first st c true siren w).2
       = heap (follow_then rel first st c false siren w).2).
Proof.
  split.
  - intros ctype st c w.
    destruct (accept_outline ctype st c true w) as (-> & hs1 & -> & ->).
    destruct (accept_outline ctype st c false w) as (-> & hs0 & -> & ->).
    done.
  - intros rel first st c siren w.
    destruct (follow_then_run rel first st c true siren w) as (w1 & -> & H1).
    destruct (follow_then_run rel first st c false siren w) as (w0 & -> & H0).
    simpl. split; [|congruence].
    destruct (possible_at_candidates rel st c true siren w) as [Hs1 Hb1].
    destruct (possible_at_candidates rel st c false siren w) as [Hs0 Hb0].
    apply (verdict_outline _ _ _ st c); [congruence|done|done].
Qed.

(** ** accept: what is left alone *)

(** X4.  [accept] always resolves.  Of the store it changes the one
    headers object of the new configuration and no other; in that object
    every header other than ["Accept"] keeps the value it had in the
    configuration of the state given to the step (none when that state had
    no headers). *)
Theorem accept_touches_only_the_Accept_header ctype st c d w :
  ∃ st' w',
    accept ctype st c d w = (Resolved st', w') ∧
    (∀ l, headers (config st') ≠ Some l → heap w' !! l = heap w !! l) ∧
    (∀ k, k ≠ "Accept" →
       header_value w' (config st') k = header_value w (config st) k).
Proof.
  destruct (accept_outline ctype st c d w) as (Ho & hs & Hh & ->).
  destruct (accept ctype st c d w) as [[st'| |] w'] eqn:E; try done.
  simpl in Ho, Hh. injection Ho as Hcur Hroot Hcfg.
  exists st', w'. split; [done|]. rewrite Hcfg, Hh. simpl. split.
  - intros l Hl. apply lookup_insert_ne. congruence.
  - intros k Hk. unfold header_value, headers_of at 1. simpl.
    rewrite Hh, lookup_insert_eq. simpl.
    rewrite lookup_insert_ne by done.
    by destruct (headers_of w (config st)).
Qed.

(** ** goto *)


(** X6.  On a navigator whose starting state is rejected, [goto] asks the
    cache for nothing and returns a navigator whose starting state never
    settles: the error is lost, and whatever steps are appended, the
    reduction never settles and runs none of them. *)
Theorem goto_after_a_failure_never_settles n url w e :
  start n = Rejected e →
  let g := SirenNav_goto n url w in
  g.2 = w ∧ start g.1 = Pending ∧
  (∀ ss d w',
     reduce (start g.1) (steps g.1 ++ ss) (cache g.1) d w' = (Pending, w')).
Proof.
  intros Hst. unfold SirenNav_goto. rewrite Hst. run.
  repeat split. intros ss d w'. apply reduce_pending.
Qed.

(** ** The terminal operations *)


(** ** accept on a configuration without headers *)

(** X11.  On a state whose configuration has no headers object, [accept]
    allocates one: the location is new to the store, the object holds the
    single header ["Accept"] with the content type as its value, and every
    object the store had is left as it was. *)
Theorem accept_allocates_fresh_headers ctype st c d w :
  headers (config st) = None →
  ∃ st' w' l,
    accept ctype st c d w = (Resolved st', w') ∧
    headers (config st') = Some l ∧ (l ∉ dom (heap w)) ∧
    (heap w' !! l = Some {["Accept" := ctype]}) ∧
    (∀ l', l' ∈ dom (heap w) → heap w' !! l' = heap w !! l').
Proof.
  intros Hnone.
  destruct (accept_outline ctype st c d w) as (Ho & hs & Hh & ->).
  destruct (accept ctype st c d w) as [[st'| |] w'] eqn:E; try done.
  simpl in Ho, Hh. injection Ho as _ _ Hcfg.
  exists st', w', (fresh (dom (heap w))).
  split; [done|]. rewrite Hcfg, Hh. simpl.
  unfold accept_loc, accept_new_value, accept_value, headers_of.
  rewrite Hnone. simpl. repeat split.
  - apply is_fresh.
  - by rewrite lookup_insert_eq.
  - intros l' Hl'. apply lookup_insert_ne. intros <-.
    by apply (is_fresh (dom (heap w))).
Qed.

(** ** squash of a chain that fails *)

(** X12.  [sqaush] memoises a failure like a result: when the chain is
    rejected at the time of the call, the navigator returned starts from
    that rejection, and whatever steps are appended to it, every later
    reduction is rejected with the same error at once, runs no step and
    leaves the world as it is. *)
Theorem sqaush_memoises_a_failure n d w e :
  (reduce (start n) (steps n) (cache n) (or_false d) w).1 = Rejected e →
  let sq := SirenNav_sqaush n d w in
  start sq.1 = Rejected e ∧
  (∀ ss d' w',
     reduce (start sq.1) (steps sq.1 ++ ss) (cache sq.1) d' w'
     = (Rejected e, w')).
Proof.
  intros Hr. unfold SirenNav_sqaush. run.
  destruct (reduce (start n) (steps n) (cache n) (or_false d) w) as [p w1].
  simpl in *. subst p. split; [done|].
  intros ss d' w'. apply reduce_rejected.
Qed.

End Properties.

(** * The engine on the sample host *)

Import Journal.

(** C1: the shallow copy of [accept] shares the headers object.  The
    navigator [squashed] starts from a state whose configuration has the
    Accept value ["x"]; one [accept("a")] step applied to that state
    leaves the configuration of that same state with the value ["x, a"],
    and evaluating [squashed.accept("a").accept("b")] leaves it with the
    value ["x, a, b"]. *)
Lemma accept_rewrites_previous_configuration :
  start squashed = Resolved st_squashed ∧
  accept_value w2 (config st_squashed) = Some "x" ∧
  accept_value (accept "a" st_squashed tt false w2).2 (config st_squashed)
  = Some "x, a" ∧
  accept_value
    (SirenNav_getURL (SirenNav_accept (SirenNav_accept squashed "a") "b")
       None w2).2
    (config st_squashed) = Some "x, a, b".
Proof. vm_compute. repeat split. Qed.

(** C2: [goto] reads [this.start] and never looks at [this.steps].  The
    chain of [api.accept("a")] resolves to a configuration with the Accept
    value ["a"]; [api.accept("a").goto("/widgets")] starts from a state
    whose configuration has no headers at all. *)
Lemma goto_drops_pending_accept :
  (∃ st w,
     reduce (start (SirenNav_accept api "a")) (steps (SirenNav_accept api "a"))
       (cache (SirenNav_accept api "a")) false w1 = (Resolved st, w)
     ∧ accept_value w (config st) = Some "a") ∧
  start (SirenNav_goto (SirenNav_accept api "a") "/widgets" w1).1
  = Resolved st_widgets ∧
  steps (SirenNav_goto (SirenNav_accept api "a") "/widgets" w1).1 = [] ∧
  accept_value (SirenNav_goto (SirenNav_accept api "a") "/widgets" w1).2
    (config st_widgets) = None.
Proof.
  split; [eexists _, _; split; [vm_compute; reflexivity | vm_compute; reflexivity]|].
  vm_compute. repeat split.
Qed.

(** C8: on the navigator [api.accept("x")], [accept("a")] then
    [accept("b")] resolves to a configuration whose Accept value is
    ["x, a, b"], not ["a, b"]. *)
Lemma accept_chain_after_earlier_accept :
  ∃ st w,
    reduce
      (start (SirenNav_accept (SirenNav_accept (SirenNav_accept api "x") "a") "b"))
      (steps (SirenNav_accept (SirenNav_accept (SirenNav_accept api "x") "a") "b"))
      (cache (SirenNav_accept (SirenNav_accept (SirenNav_accept api "x") "a") "b"))
      false w1
    = (Resolved st, w)
    ∧ accept_value w (config st) = Some "x, a, b"
    ∧ accept_value w (config st) ≠ Some "a, b".
Proof.
  eexists _, _. split; [vm_compute; reflexivity|].
  split; [vm_compute; reflexivity|]. vm_compute. intros [=].
Qed.

(** After [api.follow("widgets").sqaush()] two [get]s only add the two
    requests to the journal, whereas two [get]s on the navigator itself
    fetch the document of ["/api"] again each time. *)
Example sqaush_journal :
  let n := SirenNav_follow api "widgets" None in
  let sq := SirenNav_sqaush n None w1 in
  ext sq.2 = ["getOr /api"; "GET /api"; "getOr /widgets"] ∧
  ext (SirenNav_get sq.1 None (SirenNav_get sq.1 None sq.2).2).2
  = ext sq.2 ++ ["request /widgets"; "request /widgets"] ∧
  ext (SirenNav_get n None (SirenNav_get n None w1).2).2
  = ["getOr /api"; "GET /api"; "getOr /widgets"; "request /widgets";
     "GET /api"; "getOr /widgets"; "request /widgets"].
Proof. vm_compute. repeat split. Qed.

(** ** The theorems at work on the sample site *)

Lemma follow_fails_iff_witness :
  getSiren st_widgets w0 = (Resolved doc_widgets, w_widgets) ∧
  (let possible := possible_at "item" st_widgets tt false doc_widgets w_widgets in
   let r := (follow "item" None st_widgets tt false w0).1 in
   length possible = length (candidates "item" st_widgets doc_widgets) ∧
   (∀ e, r = Rejected e ↔
      (possible = [] ∧ e = NoMatch "item" doc_widgets) ∨
      (1 < length possible ∧ or_false None = false
       ∧ e = AmbiguousMatch "item" doc_widgets)) ∧
   ((∃ st', r = Resolved st') ↔
      ¬ (possible = [] ∨ (1 < length possible ∧ or_false None = false)))).
Proof.
  split; [reflexivity|].
  exact (follow_fails_iff "item" None st_widgets tt false w0
           doc_widgets w_widgets eq_refl).
Defined.

Lemma follow_takes_first_candidate_witness :
  getSiren st_widgets w0 = (Resolved doc_widgets, w_widgets) ∧
  (let possible := possible_at "item" st_widgets tt false doc_widgets w_widgets in
   let r := (follow "item" (Some true) st_widgets tt false w0).1 in
   map shape possible
   = omap (entity_candidate "item" st_widgets)
       (default [] (entities doc_widgets)) ++
     omap (link_candidate "item" st_widgets) (default [] (links doc_widgets)) ∧
   (∀ st', r = Resolved st' → head possible = Some st') ∧
   (∀ only, possible = [only] → r = Resolved only) ∧
   (∀ c0 c1 rest,
      possible = c0 :: c1 :: rest → or_false (Some true) = true →
      r = Resolved c0)).
Proof.
  split; [reflexivity|].
  exact (follow_takes_first_candidate "item" (Some true) st_widgets tt false w0
           doc_widgets w_widgets eq_refl).
Defined.

Lemma follow_builds_candidates_witness :
  (∃ h w',
     push_entity "item" st_widgets tt false [] item1 w_widgets
     = ([] ++ [mkNavState "/w/1" (root st_widgets) (config st_widgets) h], w')
     ∧ handle_for tt
         (mkNavState "/w/1" (root st_widgets) (config st_widgets) h)) ∧
  (∃ h w',
     push_entity "item" st_widgets tt false [] item2 w_widgets
     = ([] ++ [mkNavState "/w/2" (root st_widgets)
                 (mkConfig (OfEntity item2) None) h], w')
     ∧ handle_for tt
         (mkNavState "/w/2" (root st_widgets)
            (mkConfig (OfEntity item2) None) h)) ∧
  (∃ h w',
     push_link "widgets" st_api tt false [] (mkLink ["widgets"] "/widgets") w1
     = ([] ++ [mkNavState "/widgets" (root st_api) (config st_api) h], w')
     ∧ handle_for tt
         (mkNavState "/widgets" (root st_api) (config st_api) h)).
Proof.
  split; [|split].
  - exact (proj1 (follow_builds_candidates "item" st_widgets tt false)
             [] item1 w_widgets "/w/1" eq_refl eq_refl).
  - exact (proj1 (proj2 (follow_builds_candidates "item" st_widgets tt false))
             [] item2 w_widgets "/w/2" eq_refl eq_refl eq_refl).
  - exact (proj1 (proj2 (proj2
             (follow_builds_candidates "widgets" st_api tt false)))
             [] (mkLink ["widgets"] "/widgets") w1 eq_refl).
Defined.

Lemma accept_appends_in_call_order_witness :
  reduce (start api) (steps api) (cache api) false w1 = (Resolved st_api, w1) ∧
  ∃ st2 w',
    reduce (start (SirenNav_accept (SirenNav_accept api "a") "b"))
      (steps (SirenNav_accept (SirenNav_accept api "a") "b"))
      (cache (SirenNav_accept (SirenNav_accept api "a") "b")) false w1
    = (Resolved st2, w')
    ∧ accept_value w' (config st2)
      = Some (match accept_value w1 (config st_api) with
              | Some v => (v +:+ ", " +:+ "a") +:+ ", " +:+ "b"
              | None => "a" +:+ ", " +:+ "b"
              end).
Proof.
  split; [reflexivity|].
  exact (proj1 (accept_appends_in_call_order api "a" "b" false w1 st_api w1
                  eq_refl)).
Defined.

Lemma states_hold_handle_of_own_uri_witness :
  engine_nav tt (SirenNav_follow api "widgets" None) ∧
  (∀ d w st,
     (reduce (start (SirenNav_follow api "widgets" None))
        (steps (SirenNav_follow api "widgets" None))
        (cache (SirenNav_follow api "widgets" None)) d w).1 = Resolved st →
     handle_for tt st).
Proof.
  split.
  - exact (nav_follow tt api "widgets" None (nav_create tt "/api" "http://h" w0)).
  - exact (proj1 (proj2 (states_hold_handle_of_own_uri tt
             (SirenNav_follow api "widgets" None)
             (nav_follow tt api "widgets" None
                (nav_create tt "/api" "http://h" w0))))).
Defined.

Lemma follow_skips_entity_without_reference_witness :
  push_entity "ghost" st_w1 tt false [] ghost w_w1 = ([], w_w1) ∧
  (follow "ghost" None st_w1 tt false w0).1 = Rejected (NoMatch "ghost" doc_w1).
Proof.
  split.
  - exact (proj1 (follow_skips_entity_without_reference "ghost" st_w1 tt false)
             [] ghost w_w1 eq_refl eq_refl eq_refl).
  - refine (proj2 (follow_skips_entity_without_reference "ghost" st_w1 tt false)
              None doc_w1 w0 w_w1 eq_refl _ _).
    + intros e He Hrel.
      apply list_elem_of_In in He. simpl in He.
      destruct He as [<-|[<-|[]]]; [discriminate Hrel | split; reflexivity].
    + intros l Hl.
      apply list_elem_of_In in Hl. simpl in Hl.
      destruct Hl as [<-|[<-|[]]]; reflexivity.
Defined.

(** ** The further properties at work on the sample site *)

Lemma root_is_fixed_at_creation_witness :
  rooted_nav tt "http://h"
    (SirenNav_follow (SirenNav_accept api "a") "widgets" None) ∧
  (∀ d w st,
     (reduce (start (SirenNav_follow (SirenNav_accept api "a") "widgets" None))
        (steps (SirenNav_follow (SirenNav_accept api "a") "widgets" None))
        (cache (SirenNav_follow (SirenNav_accept api "a") "widgets" None))
        d w).1 = Resolved st →
     root st = "http://h").
Proof.
  split.
  - exact (rooted_follow tt "http://h" _ "widgets" None
             (rooted_accept tt "http://h" api "a"
                (rooted_create tt "http://h" "/api" w0))).
  - exact (proj2 (root_is_fixed_at_creation tt "http://h"
             (SirenNav_follow (SirenNav_accept api "a") "widgets" None)
             (rooted_follow tt "http://h" _ "widgets" None
                (rooted_accept tt "http://h" api "a"
                   (rooted_create tt "http://h" "/api" w0))))).
Defined.

Lemma follow_writes_no_configuration_witness :
  getSiren st_widgets w0 = (Resolved doc_widgets, w_widgets) ∧
  heap (follow "item" (Some true) st_widgets tt false w0).2 = heap w_widgets.
Proof.
  split; [reflexivity|].
  exact (proj1 (follow_writes_no_configuration "item" (Some true) st_widgets
                  tt false w0 doc_widgets w_widgets eq_refl)).
Defined.

Lemma failed_fetch_rejects_the_chain_witness :
  getSiren st_nowhere w0
  = (Rejected (Failure "404"), mkWorld ∅ ["GET /nowhere"]) ∧
  reduce (Resolved st_nowhere) [follow "item" None; accept "a"] tt false w0
  = (Rejected (Failure "404"), mkWorld ∅ ["GET /nowhere"]).
Proof.
  split; [reflexivity|].
  exact (proj2 (failed_fetch_rejects_the_chain "item" None [accept "a"]
                  st_nowhere tt false w0 (Failure "404")
                  (mkWorld ∅ ["GET /nowhere"]) eq_refl)).
Defined.


Lemma goto_after_a_failure_never_settles_witness :
  start lost = Rejected (NoMatch "nothing" doc_api) ∧
  (∀ ss d w',
     reduce (start (SirenNav_goto lost "/widgets" w1).1)
       (steps (SirenNav_goto lost "/widgets" w1).1 ++ ss)
       (cache (SirenNav_goto lost "/widgets" w1).1) d w' = (Pending, w')).
Proof.
  split; [reflexivity|].
  exact (proj2 (proj2
           (goto_after_a_failure_never_settles lost "/widgets" w1
              (NoMatch "nothing" doc_api) eq_refl))).
Defined.

Lemma accept_allocates_fresh_headers_witness :
  headers (config st_api) = None ∧
  ∃ st' w' l,
    accept "a" st_api tt false w1 = (Resolved st', w') ∧
    headers (config st') = Some l ∧ (l ∉ dom (heap w1)) ∧
    (heap w' !! l = Some {["Accept" := "a"]}) ∧
    (∀ l', l' ∈ dom (heap w1) → heap w' !! l' = heap w1 !! l').
Proof.
  split; [reflexivity|].
  exact (accept_allocates_fresh_headers "a" st_api tt false w1 eq_refl).
Defined.

Lemma sqaush_memoises_a_failure_witness :
  (reduce (start (SirenNav_follow api "nothing" None))
     (steps (SirenNav_follow api "nothing" None))
     (cache (SirenNav_follow api "nothing" None)) (or_false None) w1).1
  = Rejected (NoMatch "nothing" doc_api) ∧
  (∀ ss d' w',
     reduce (start (SirenNav_sqaush (SirenNav_follow api "nothing" None) None w1).1)
       (steps (SirenNav_sqaush (SirenNav_follow api "nothing" None) None w1).1
        ++ ss)
       (cache (SirenNav_sqaush (SirenNav_follow api "nothing" None) None w1).1)
       d' w'
     = (Rejected (NoMatch "nothing" doc_api), w')).
Proof.
  split; [reflexivity|].
  exact (proj2 (sqaush_memoises_a_failure (SirenNav_follow api "nothing" None)
                  None w1 (NoMatch "nothing" doc_api) eq_refl)).
Defined.
